(** * Cluster join (kms/cluster.go)

    A shallow embedding of [Join], the routine that merges the servers
    listed in a configuration into one cluster, and the properties of
    its discovery, election and convergence phases.

    The network client is outside the verified code.  It is a parameter
    of the development: a world state [W] threaded through every call,
    and every call that [Join] issues is written to a log together with
    the routing table ([client.lb.Hosts]) it was issued under and the
    answer it got. *)

From stdpp Require Import base strings list gmap sets.

(** ** Strings *)

(** [strip s prefix] is [Some rest] when [s = prefix ++ rest]. *)
Fixpoint strip (s prefix : string) : option string :=
  match prefix with
  | EmptyString => Some s
  | String c prefix' =>
      match s with
      | EmptyString => None
      | String d s' => if Ascii.eqb c d then strip s' prefix' else None
      end
  end.

(** Go's [strings.TrimPrefix]: [s] without the leading [prefix], and [s]
    itself when it does not start with [prefix]. *)
Definition TrimPrefix (s prefix : string) : string :=
  match strip s prefix with
  | Some rest => rest
  | None => s
  end.

(** [const Scheme = "https://"] *)
Definition Scheme : string := "https://".

(** ** Requests, responses and the client *)

(** Modelled from the spec: the declaration of [NodeStatusResponse] is
    not in cluster.go.  An up node of a status result is a host; [Host]
    is the one field [Join] reads (line 59). *)
Record NodeStatusResponse := { Host : string }.

(** Modelled from the spec: the declaration of [ClusterStatusResponse]
    is not in cluster.go.  A status result is two collections of hosts,
    "up" and "down".  [Join] takes the length of each and ranges over
    their values (lines 54-63), which a list gives whatever the Go
    collection is: the up nodes carry their address in [Host], the down
    nodes are plain addresses. *)
Record ClusterStatusResponse := {
  NodesUp : list NodeStatusResponse;
  NodesDown : list string
}.

(** Modelled from the spec: the declaration of [AddClusterNodeRequest]
    is not in cluster.go.  A join request names the host to add; the
    field is [Host] in Go (line 79). *)
Record AddClusterNodeRequest := { ReqHost : string }.

(** The control flow of a [for ... range] loop inside a function: the
    function returned from within the loop, the loop was left by [break],
    or the range was exhausted. *)
Inductive Flow (E : Type) :=
  | LoopReturn (err : E)
  | LoopBreak
  | LoopDone.
Arguments LoopReturn {E} err.
Arguments LoopBreak {E}.
Arguments LoopDone {E}.

(** How a call of [Join] ends: it returns an [error] ([None] is [nil]),
    or it panics on an index out of range. *)
Inductive Outcome (E : Type) :=
  | Return (err : option E)
  | Panic.
Arguments Return {E} err.
Arguments Panic {E}.

Section Cluster.

(** [error] values, [context.Context], the part of [Config] besides the
    endpoints, the part of [Client] besides the load balancer's hosts,
    and the state of the servers and the network. *)
Context {Error Ctx Options Conn W : Type}.

(** Modelled from the spec: the declaration of [Config] is not in
    cluster.go.  [Endpoints] is the ordered list of endpoints the caller
    supplies; what else a configuration holds is left open. *)
Record Config := {
  Endpoints : list string;
  Opts : Options
}.

(** Modelled from the spec: the declaration of [Client] is not in
    cluster.go.  [client.lb.Hosts] is the routing state of the client,
    the hosts its next calls are sent to; what else a client holds is
    left open. *)
Record Client := {
  lb_Hosts : list string;
  conn : Conn
}.

Definition set_Hosts (hosts : list string) (c : Client) : Client :=
  {| lb_Hosts := hosts; conn := conn c |}.

(** The calls [Join] issues, each with its answer; the network calls
    also carry the routing table they were sent under. *)
Inductive Call :=
  | NewClientCall (err : option Error)
  | ClusterStatusCall (hosts : list string)
                      (answer : Error + ClusterStatusResponse)
  | AddNodeCall (hosts : list string) (req : AddClusterNodeRequest)
                (err : option Error).

(** The collaborators, which are not in cluster.go either.  [NewClient]
    builds a client from the configuration; the two network calls are
    methods of the client: they read it (its routing table included) and
    act on the world.  An answer is an error or a response, never both
    and never neither.

    The client is shared with its methods, which may change it.
    [AddNode] therefore hands back the client as the call left it: the
    next join request is sent from that client.  What a status query
    does to the routing table needs no such care, since [Join] writes
    the table anew before it is read again (lines 48 and 72). *)
Variable NewClient : Config -> Error + Client.
Variable ClusterStatus :
  Ctx -> Client -> W -> (Error + ClusterStatusResponse) * W.
Variable AddNode :
  Ctx -> Client -> AddClusterNodeRequest -> W -> option Error * Client * W.

(** [slices.Collect(maps.Keys(m))]: the keys of the map, in the order
    the runtime happens to iterate them in. *)
Variable map_keys : gset string -> list string.

(** The local variables of [Join] once both exist. *)
Record Locals := {
  client : Client;
  clusterNodes : gset string
}.

Definition with_Hosts (hosts : list string) (l : Locals) : Locals :=
  {| client := set_Hosts hosts (client l); clusterNodes := clusterNodes l |}.

Definition with_nodes (m : gset string) (l : Locals) : Locals :=
  {| client := client l; clusterNodes := m |}.

Definition with_client (c : Client) (l : Locals) : Locals :=
  {| client := c; clusterNodes := clusterNodes l |}.

(** [for _, node := range status.NodesUp { clusterNodes[node.Host] = struct{}{} }] *)
Fixpoint record_up (nodes : list NodeStatusResponse) (m : gset string)
  : gset string :=
  match nodes with
  | [] => m
  | node :: nodes' => record_up nodes' ({[ Host node ]} ∪ m)
  end.

(** [for _, node := range status.NodesDown { clusterNodes[node] = struct{}{} }] *)
Fixpoint record_down (nodes : list string) (m : gset string) : gset string :=
  match nodes with
  | [] => m
  | node :: nodes' => record_down nodes' ({[ node ]} ∪ m)
  end.

(** The discovery loop (lines 46-65).  It yields how the loop ended, the
    locals and the world it left, and the calls it issued, oldest
    first. *)
Fixpoint discover (ctx : Ctx) (endpoints : list string) (l : Locals) (w : W)
  : Flow Error * Locals * W * list Call :=
  match endpoints with
  | [] => (LoopDone, l, w, [])
  | endpoint :: rest =>
      let endpoint := TrimPrefix endpoint Scheme in
      let l := with_Hosts [endpoint] l in
      let '(answer, w) := ClusterStatus ctx (client l) w in
      let call := ClusterStatusCall (lb_Hosts (client l)) answer in
      match answer with
      | inl err => (LoopReturn err, l, w, [call])
      | inr status =>
          if (length (NodesUp status) + length (NodesDown status) =? 1)%nat
          then
            let '(flow, l, w, calls) := discover ctx rest l w in
            (flow, l, w, call :: calls)
          else
            let m := record_up (NodesUp status) (clusterNodes l) in
            let m := record_down (NodesDown status) m in
            (LoopBreak, with_nodes m l, w, [call])
      end
  end.

(** The fallback election (lines 69-71); [None] is the panic of
    [conf.Endpoints[0]] on an empty slice. *)
Definition elect (endpoints : list string) (l : Locals) : option Locals :=
  if (size (clusterNodes l) =? 0)%nat then
    match endpoints !! 0%nat with
    | Some first =>
        Some (with_nodes ({[ TrimPrefix first Scheme ]} ∪ clusterNodes l) l)
    | None => None
    end
  else Some l.

(** The convergence loop (lines 74-82).  A loop that runs to its end
    yields [None]; [Some err] is [return err].  Each join request is
    logged with the routing table it was sent under, and the loop goes on
    with the client as the request left it. *)
Fixpoint converge (ctx : Ctx) (endpoints : list string) (l : Locals) (w : W)
  : option Error * Locals * W * list Call :=
  match endpoints with
  | [] => (None, l, w, [])
  | endpoint :: rest =>
      let endpoint := TrimPrefix endpoint Scheme in
      if decide (endpoint ∈ clusterNodes l) then converge ctx rest l w
      else
        let req := {| ReqHost := endpoint |} in
        let '(err, c, w) := AddNode ctx (client l) req w in
        let call := AddNodeCall (lb_Hosts (client l)) req err in
        let l := with_client c l in
        match err with
        | Some e => (Some e, l, w, [call])
        | None =>
            let '(r, l, w, calls) := converge ctx rest l w in
            (r, l, w, call :: calls)
        end
  end.

(** What is left when [Join] ends: its outcome, its local variables
    (if execution reached their declaration), the world and the log. *)
Record Run := {
  outcome : Outcome Error;
  locals : option Locals;
  world : W;
  calls : list Call
}.

(** [Join] (lines 24-84): the trivial case, the client, discovery, the
    election, the routing update and convergence. *)
Definition Join (ctx : Ctx) (conf : Config) (w : W) : Run :=
  if (length (Endpoints conf) <=? 1)%nat then
    {| outcome := Return None; locals := None; world := w; calls := [] |}
  else
    match NewClient conf with
    | inl err =>
        {| outcome := Return (Some err); locals := None; world := w;
           calls := [NewClientCall (Some err)] |}
    | inr c =>
        let l := {| client := c; clusterNodes := ∅ |} in
        let '(flow, l, w, calls1) := discover ctx (Endpoints conf) l w in
        match flow with
        | LoopReturn err =>
            {| outcome := Return (Some err); locals := Some l; world := w;
               calls := NewClientCall None :: calls1 |}
        | LoopBreak | LoopDone =>
            match elect (Endpoints conf) l with
            | None =>
                {| outcome := Panic; locals := Some l; world := w;
                   calls := NewClientCall None :: calls1 |}
            | Some l =>
                let l := with_Hosts (map_keys (clusterNodes l)) l in
                let '(err, l, w, calls2) :=
                  converge ctx (Endpoints conf) l w in
                {| outcome := Return err; locals := Some l; world := w;
                   calls := NewClientCall None :: calls1 ++ calls2 |}
            end
        end
    end.

(** The four ways a call of [Join] goes: the list is trivial, no client
    can be built, a status query fails, or the convergence loop is
    reached. *)
Inductive JoinCase (ctx : Ctx) (conf : Config) (w : W) : Run → Prop :=
  | JoinTrivial :
      length (Endpoints conf) ≤ 1 →
      JoinCase ctx conf w
        {| outcome := Return None; locals := None; world := w; calls := [] |}
  | JoinNoClient err :
      1 < length (Endpoints conf) →
      NewClient conf = inl err →
      JoinCase ctx conf w
        {| outcome := Return (Some err); locals := None; world := w;
           calls := [NewClientCall (Some err)] |}
  | JoinNoStatus c err l1 w1 cs1 :
      1 < length (Endpoints conf) →
      NewClient conf = inr c →
      discover ctx (Endpoints conf) {| client := c; clusterNodes := ∅ |} w
        = (LoopReturn err, l1, w1, cs1) →
      JoinCase ctx conf w
        {| outcome := Return (Some err); locals := Some l1; world := w1;
           calls := NewClientCall None :: cs1 |}
  | JoinConverge c flow l1 w1 cs1 l2 err l3 w2 cs2 :
      1 < length (Endpoints conf) →
      NewClient conf = inr c →
      discover ctx (Endpoints conf) {| client := c; clusterNodes := ∅ |} w
        = (flow, l1, w1, cs1) →
      (∀ e, flow ≠ LoopReturn e) →
      elect (Endpoints conf) l1 = Some l2 →
      converge ctx (Endpoints conf)
        (with_Hosts (map_keys (clusterNodes l2)) l2) w1
        = (err, l3, w2, cs2) →
      JoinCase ctx conf w
        {| outcome := Return err; locals := Some l3; world := w2;
           calls := NewClientCall None :: cs1 ++ cs2 |}.

(** ** Vocabulary of the properties *)

(** The normalized form of an endpoint: the scheme prefix stripped. *)
Definition normalize (endpoint : string) : string :=
  TrimPrefix endpoint Scheme.

(** The total membership a status answer reports. *)
Definition total (status : ClusterStatusResponse) : nat :=
  length (NodesUp status) + length (NodesDown status).

(** The hosts a status answer names, as it names them. *)
Definition reported (status : ClusterStatusResponse) : list string :=
  (Host <$> NodesUp status) ++ NodesDown status.

(** The error a call failed with, if it failed. *)
Definition failure (c : Call) : option Error :=
  match c with
  | NewClientCall err => err
  | ClusterStatusCall _ (inl err) => Some err
  | ClusterStatusCall _ (inr _) => None
  | AddNodeCall _ _ err => err
  end.

(** The hosts named by the AddNode calls of a log, in the order of the
    calls. *)
Fixpoint joined (log : list Call) : list string :=
  match log with
  | [] => []
  | AddNodeCall _ req _ :: log' => ReqHost req :: joined log'
  | _ :: log' => joined log'
  end.

(** The routing tables of the status queries of a log, in order. *)
Fixpoint probed (log : list Call) : list (list string) :=
  match log with
  | [] => []
  | ClusterStatusCall hosts _ :: log' => hosts :: probed log'
  | _ :: log' => probed log'
  end.

(** The routing tables the join requests of a log were sent under, in
    order. *)
Fixpoint routed (log : list Call) : list (list string) :=
  match log with
  | [] => []
  | AddNodeCall hosts _ _ :: log' => hosts :: routed log'
  | _ :: log' => routed log'
  end.

(** A status query that was answered with a total membership of 1. *)
Definition standalone (c : Call) : Prop :=
  ∃ hosts status, c = ClusterStatusCall hosts (inr status) ∧ total status = 1.

(** The normalized endpoints that are not in the membership set [m], in
    list order and with their repetitions. *)
Definition outsiders (m : gset string) (endpoints : list string)
  : list string :=
  filter (λ h, h ∉ m) (normalize <$> endpoints).

(** How often [h] occurs in [hs]. *)
Definition occurrences (h : string) (hs : list string) : nat :=
  length (filter (λ x, x = h) hs).

End Cluster.

(** ** Scenarios

    A small concrete network: status answers and join answers are
    looked up by host, the world remembers which hosts were told to
    join, latest first, and a join that is accepted adds the host to the
    routing table of the client. *)
Module Scenario.

Record Net := {
  status_of : string -> string + ClusterStatusResponse;
  join_of : string -> option string
}.

Definition NewClient (conf : @Config unit) : string + @Client unit :=
  inr {| lb_Hosts := []; conn := tt |}.

Definition ClusterStatus (net : Net) (ctx : unit) (c : @Client unit)
  (w : list string) : (string + ClusterStatusResponse) * list string :=
  (status_of net (default "" (head (lb_Hosts c))), w).

Definition AddNode (net : Net) (ctx : unit) (c : @Client unit)
  (req : AddClusterNodeRequest) (w : list string)
  : option string * @Client unit * list string :=
  (join_of net (ReqHost req),
   match join_of net (ReqHost req) with
   | Some _ => c
   | None => set_Hosts (lb_Hosts c ++ [ReqHost req]) c
   end,
   ReqHost req :: w).

Definition config (endpoints : list string) : @Config unit :=
  {| Endpoints := endpoints; Opts := tt |}.

Definition run (net : Net) (endpoints : list string) : Run :=
  Join NewClient (ClusterStatus net) (AddNode net) elements tt
    (config endpoints) [].

Definition up (hosts : list string) : list NodeStatusResponse :=
  (λ h, {| Host := h |}) <$> hosts.

Definition alone (h : string) : string + ClusterStatusResponse :=
  inr {| NodesUp := up [h]; NodesDown := [] |}.

(** Every node is on its own and every join is accepted. *)
Definition all_alone : Net :=
  {| status_of := alone; join_of := λ _, None |}.

(** [a] and [b] already form a cluster, [b] being down. *)
Definition pair : Net :=
  {| status_of := λ h,
       if String.eqb h "a" then inr {| NodesUp := up ["a"]; NodesDown := ["b"] |}
       else alone h;
     join_of := λ _, None |}.

(** As [pair], but the cluster reports its members with the scheme. *)
Definition pair_with_scheme : Net :=
  {| status_of := λ h,
       if String.eqb h "a"
       then inr {| NodesUp := up ["https://a"]; NodesDown := ["https://b"] |}
       else alone h;
     join_of := λ _, None |}.

(** [a] answers with no node at all. *)
Definition nobody : Net :=
  {| status_of := λ h,
       if String.eqb h "a" then inr {| NodesUp := []; NodesDown := [] |}
       else alone h;
     join_of := λ _, None |}.

(** [a] answers with no node at all, and [b] refuses to join. *)
Definition nobody_refusing : Net :=
  {| status_of := status_of nobody;
     join_of := λ h, if String.eqb h "b" then Some "refused" else None |}.

(** [b] cannot be reached. *)
Definition unreachable : Net :=
  {| status_of := λ h, if String.eqb h "b" then inl "timeout" else alone h;
     join_of := λ _, None |}.

(** [c] refuses to join. *)
Definition refusing : Net :=
  {| status_of := alone;
     join_of := λ h, if String.eqb h "c" then Some "refused" else None |}.

End Scenario.

(** ** Properties *)

(** *** Stripping a prefix *)

Lemma strip_app (p s : string) : strip (p +:+ s) p = Some s.
Proof.
  induction p as [|c p IH]; simpl; [by destruct s|].
  by rewrite Ascii.eqb_refl.
Qed.

Lemma strip_Some (s p r : string) : strip s p = Some r → s = p +:+ r.
Proof.
  revert s; induction p as [|c p IH]; intros s.
  - destruct s; by intros [= <-].
  - destruct s as [|d s]; simpl; [done|].
    destruct (Ascii.eqb_spec c d) as [->|]; [|done].
    intros H%IH. by subst.
Qed.

(** X1: a string that starts with the prefix comes back without it, and
    only one copy of the prefix is taken off. *)
Theorem TrimPrefix_app (p s : string) : TrimPrefix (p +:+ s) p = s.
Proof. unfold TrimPrefix. by rewrite strip_app. Qed.

(** X2: [TrimPrefix] either takes the prefix off the front of the string,
    or the string does not start with the prefix and comes back as it
    is. *)
Theorem TrimPrefix_cases (s p : string) :
  s = p +:+ TrimPrefix s p ∨ (TrimPrefix s p = s ∧ ∀ r, s ≠ p +:+ r).
Proof.
  unfold TrimPrefix. destruct (strip s p) as [r|] eqn:H.
  - left. by apply strip_Some.
  - right. split; [done|]. intros r ->. by rewrite strip_app in H.
Qed.

(** *** Sets and logs *)

Section Logs.

Context {Error Conn : Type}.

Local Abbreviation Call := (@Call Error).
Local Abbreviation asked :=
  (Forall2 (λ (c : Call) (h : string),
              ∃ hosts, c = AddNodeCall hosts {| ReqHost := h |} None)).

(** Recording the hosts of a status answer. *)

Lemma elem_of_record_up (nodes : list NodeStatusResponse) (m : gset string) h :
  h ∈ record_up nodes m ↔ h ∈ Host <$> nodes ∨ h ∈ m.
Proof.
  revert m; induction nodes as [|node nodes IH]; intros m; simpl.
  - rewrite elem_of_nil. tauto.
  - rewrite IH, elem_of_union, elem_of_singleton, elem_of_cons. tauto.
Qed.

Lemma elem_of_record_down (nodes : list string) (m : gset string) h :
  h ∈ record_down nodes m ↔ h ∈ nodes ∨ h ∈ m.
Proof.
  revert m; induction nodes as [|node nodes IH]; intros m; simpl.
  - rewrite elem_of_nil. tauto.
  - rewrite IH, elem_of_union, elem_of_singleton, elem_of_cons. tauto.
Qed.

Lemma record_reported (status : ClusterStatusResponse) (m : gset string) :
  record_down (NodesDown status) (record_up (NodesUp status) m)
  = list_to_set (reported status) ∪ m.
Proof.
  apply set_eq; intros h.
  rewrite elem_of_record_down, elem_of_record_up. unfold reported.
  rewrite elem_of_union, elem_of_list_to_set, elem_of_app. tauto.
Qed.

Lemma reported_length (status : ClusterStatusResponse) :
  length (reported status) = total status.
Proof. unfold reported, total. by rewrite length_app, length_fmap. Qed.

Lemma reported_nil (status : ClusterStatusResponse) :
  total status = 0 → reported status = [].
Proof. rewrite <- reported_length. apply nil_length_inv. Qed.

Lemma elem_of_reported (status : ClusterStatusResponse) (m : gset string) h :
  h ∈ list_to_set (reported status) ∪ m
  ↔ h ∈ Host <$> NodesUp status ∨ h ∈ NodesDown status ∨ h ∈ m.
Proof.
  rewrite elem_of_union, elem_of_list_to_set. unfold reported.
  rewrite elem_of_app. tauto.
Qed.

(** What a log tells. *)

Lemma joined_app (xs ys : list Call) : joined (xs ++ ys) = joined xs ++ joined ys.
Proof.
  induction xs as [|[| |] xs IH]; simpl; try done. by rewrite IH.
Qed.

Lemma probed_app (xs ys : list Call) : probed (xs ++ ys) = probed xs ++ probed ys.
Proof.
  induction xs as [|[| |] xs IH]; simpl; try done. by rewrite IH.
Qed.

Lemma routed_app (xs ys : list Call) : routed (xs ++ ys) = routed xs ++ routed ys.
Proof.
  induction xs as [|[| |] xs IH]; simpl; try done. by rewrite IH.
Qed.

Lemma routed_queries (cs : list Call) :
  Forall (λ c : Call, ∃ hosts answer, c = ClusterStatusCall hosts answer) cs →
  routed cs = [].
Proof. induction 1 as [|c cs (hosts & answer & ->) _ IH]; simpl; done. Qed.

Lemma joined_standalone (cs : list Call) : Forall standalone cs → joined cs = [].
Proof.
  induction 1 as [|c cs (hosts & status & -> & _) _ IH]; simpl; done.
Qed.

Lemma failure_standalone (cs : list Call) c :
  Forall standalone cs → c ∈ cs → failure c = None.
Proof.
  rewrite Forall_forall. intros H Hc.
  by destruct (H c Hc) as (hosts & status & -> & _).
Qed.

Lemma standalone_answer (cs : list Call) hosts answer :
  Forall standalone cs → ClusterStatusCall hosts answer ∈ cs →
  ∃ status, answer = inr status ∧ total status = 1.
Proof.
  rewrite Forall_forall. intros H Hin.
  destruct (H _ Hin) as (hosts' & status & [= _ ->] & Ht). by exists status.
Qed.

Lemma joined_asked (cs : list Call) (hs : list string) :
  asked cs hs → joined cs = hs.
Proof.
  induction 1 as [|c h cs hs [hosts ->] _ IH]; simpl; [done|]. by rewrite IH.
Qed.

Lemma probed_asked (cs : list Call) (hs : list string) :
  asked cs hs → probed cs = [].
Proof. induction 1 as [|c h cs hs [hosts ->] _ IH]; simpl; done. Qed.

Lemma asked_request (cs : list Call) (hs : list string) c :
  asked cs hs → c ∈ cs →
  ∃ hosts h, c = AddNodeCall hosts {| ReqHost := h |} None.
Proof.
  induction 1 as [|c' h cs hs [hosts ->] _ IH]; [by intros ?%elem_of_nil|].
  intros [->|Hin]%elem_of_cons; [by eexists _, _|auto].
Qed.

Lemma failure_asked (cs : list Call) (hs : list string) c :
  asked cs hs → c ∈ cs → failure c = None.
Proof. intros H Hin. by destruct (asked_request _ _ _ H Hin) as (? & ? & ->). Qed.



Lemma elem_of_joined (cs : list Call) hosts req err :
  AddNodeCall hosts req err ∈ cs → ReqHost req ∈ joined cs.
Proof.
  induction cs as [|c cs IH]; [by intros ?%elem_of_nil|].
  intros [<-|Hin]%elem_of_cons; simpl; [by left|].
  destruct c; auto. right. auto.
Qed.

Lemma elem_of_outsiders (m : gset string) (endpoints : list string) h :
  h ∈ outsiders m endpoints
  ↔ (h ∉ m) ∧ ∃ ep, ep ∈ endpoints ∧ h = normalize ep.
Proof.
  unfold outsiders. rewrite list_elem_of_filter, list_elem_of_fmap.
  split; intros [? (ep & ? & ?)]; (split; [done|]); by exists ep.
Qed.

Lemma occurrences_outsiders (m : gset string) (endpoints : list string) h :
  h ∉ m →
  occurrences h (outsiders m endpoints) = occurrences h (normalize <$> endpoints).
Proof.
  intros Hh. unfold occurrences, outsiders.
  induction (normalize <$> endpoints) as [|x xs IH]; [done|].
  rewrite !filter_cons. destruct (decide (x ∉ m)) as [Hx|Hx].
  - rewrite filter_cons. destruct (decide (x = h)); simpl; by rewrite IH.
  - rewrite decide_False; [done|]. intros ->. done.
Qed.

(** The election. *)

Lemma elect_inv (endpoints : list string) (l l2 : @Locals Conn) :
  elect endpoints l = Some l2 →
  client l2 = client l ∧
  ((clusterNodes l ≠ ∅ ∧ clusterNodes l2 = clusterNodes l) ∨
   (clusterNodes l = ∅ ∧
    ∃ first, endpoints !! 0 = Some first ∧
             clusterNodes l2 = {[ normalize first ]})).
Proof.
  unfold elect. destruct (Nat.eqb_spec (size (clusterNodes l)) 0) as [H0|H0].
  - apply size_empty_iff, leibniz_equiv in H0.
    destruct (endpoints !! 0) as [first|]; [|done].
    intros [= <-]. split; [done|]. right. split; [done|].
    exists first. split; [done|]. simpl. rewrite H0. apply union_empty_r_L.
  - intros [= <-]. split; [done|]. left. split; [|done].
    intros Hm. by rewrite Hm, size_empty in H0.
Qed.

Lemma elect_is_Some (endpoints : list string) (l : @Locals Conn) :
  0 < length endpoints → is_Some (elect endpoints l).
Proof.
  destruct endpoints as [|first rest]; simpl; [lia|]. intros _.
  unfold elect. destruct (_ =? 0)%nat; by eexists.
Qed.

End Logs.

(** *** The loops and [Join] *)

Section Properties.

Context {Error Ctx Options Conn W : Type}.
Variable NewClient : @Config Options -> Error + @Client Conn.
Variable ClusterStatus :
  Ctx -> @Client Conn -> W -> (Error + ClusterStatusResponse) * W.
Variable AddNode :
  Ctx -> @Client Conn -> AddClusterNodeRequest -> W
  -> option Error * @Client Conn * W.
Variable map_keys : gset string -> list string.

Local Abbreviation Locals := (@Locals Conn).
Local Abbreviation Call := (@Call Error).
Local Abbreviation join := (Join NewClient ClusterStatus AddNode map_keys).
Local Abbreviation probe := (λ e : string, [normalize e]).
Local Abbreviation fresh c := (@Build_Locals Conn c ∅).
Local Abbreviation asked :=
  (Forall2 (λ (c : Call) (h : string),
              ∃ hosts, c = AddNodeCall hosts {| ReqHost := h |} None)).

(** *** The discovery loop *)

(** What the loop leaves, by the way it ended: the queries it issued are
    those of a prefix of the endpoints, all answered standalone, followed
    by the query that made it stop, if it stopped. *)
Lemma discover_inv ctx (endpoints : list string) :
  ∀ (l : Locals) w flow l' w' cs,
    discover ClusterStatus ctx endpoints l w = (flow, l', w', cs) →
    ∃ cs0 : list Call,
      Forall standalone cs0 ∧
      probed cs0 = probe <$> take (length cs0) endpoints ∧
      match flow with
      | LoopDone =>
          cs = cs0 ∧ length cs0 = length endpoints ∧
          clusterNodes l' = clusterNodes l
      | LoopBreak =>
          ∃ e status,
            endpoints !! length cs0 = Some e ∧
            cs = cs0 ++ [ClusterStatusCall (probe e) (inr status)] ∧
            total status ≠ 1 ∧
            clusterNodes l' = list_to_set (reported status) ∪ clusterNodes l
      | LoopReturn err =>
          ∃ e,
            endpoints !! length cs0 = Some e ∧
            cs = cs0 ++ [ClusterStatusCall (probe e) (inl err)] ∧
            clusterNodes l' = clusterNodes l
      end.
Proof.
  induction endpoints as [|e rest IH]; intros l w flow l' w' cs H; simpl in H.
  - injection H as <- <- <- <-. exists []. by repeat split.
  - destruct (ClusterStatus ctx _ w) as [[err|status] w1] eqn:Hq.
    + injection H as <- <- <- <-. exists []. repeat split; [done..|].
      exists e. by repeat split.
    + fold (total status) in H. destruct (Nat.eqb_spec (total status) 1) as [Ht|Ht].
      * destruct (discover _ ctx rest _ w1) as [[[f l2] w2] cs2] eqn:Hrest.
        injection H as <- <- <- <-.
        destruct (IH _ _ _ _ _ _ Hrest) as (cs0 & Hall & Hp & Hflow).
        exists (ClusterStatusCall (probe e) (inr status) :: cs0).
        split; [constructor; [by exists (probe e), status|done]|].
        split; [simpl; by rewrite Hp|].
        destruct f; simpl.
        -- destruct Hflow as (e' & ? & -> & ?). by exists e'.
        -- destruct Hflow as (e' & st & ? & -> & ? & ?). by exists e', st.
        -- destruct Hflow as (-> & ? & ?). repeat split; [|done]. by f_equal.
      * injection H as <- <- <- <-. exists []. repeat split; [done..|].
        exists e, status. repeat split; [done|]. simpl. apply record_reported.
Qed.

(** The loop passes over a prefix of standalone endpoints and goes on
    with the rest. *)
Lemma discover_app ctx (pre rest : list string) :
  ∀ (l : Locals) w l1 w1 cs1,
    discover ClusterStatus ctx pre l w = (LoopDone, l1, w1, cs1) →
    discover ClusterStatus ctx (pre ++ rest) l w
    = (let '(flow, l2, w2, cs2) := discover ClusterStatus ctx rest l1 w1 in
       (flow, l2, w2, cs1 ++ cs2)).
Proof.
  induction pre as [|e pre IH]; intros l w l1 w1 cs1 H; simpl in H |- *.
  - injection H as <- <- <-. by destruct (discover _ ctx rest l w) as [[[? ?] ?] ?].
  - destruct (ClusterStatus ctx _ w) as [[err|status] w0]; [done|].
    destruct (_ =? 1)%nat; [|done].
    destruct (discover _ ctx pre _ w0) as [[[f l2] w2] cs2] eqn:Hpre.
    injection H as -> -> -> <-.
    rewrite (IH _ _ _ _ _ Hpre).
    by destruct (discover _ ctx rest l1 w1) as [[[? ?] ?] ?].
Qed.

(** *** The convergence loop *)

(** The loop leaves the membership set as it was; it asks the outsiders
    to join, in order, until one of them fails. *)
Lemma converge_inv ctx (endpoints : list string) :
  ∀ (l : Locals) w r l' w' cs,
    converge AddNode ctx endpoints l w = (r, l', w', cs) →
    clusterNodes l' = clusterNodes l ∧
    match r with
    | None => asked cs (outsiders (clusterNodes l) endpoints)
    | Some err =>
        ∃ j h hosts (cs0 : list Call),
          outsiders (clusterNodes l) endpoints !! j = Some h ∧
          asked cs0 (take j (outsiders (clusterNodes l) endpoints)) ∧
          cs = cs0 ++ [AddNodeCall hosts {| ReqHost := h |} (Some err)]
    end.
Proof.
  unfold outsiders.
  induction endpoints as [|e rest IH]; intros l w r l' w' cs H; simpl in H.
  - injection H as <- <- <- <-. split; [done|]. constructor.
  - rewrite fmap_cons, filter_cons. fold (normalize e) in H |- *.
    destruct (decide (normalize e ∈ clusterNodes l)) as [Hin|Hout].
    + rewrite decide_False by (by intros ?). by apply IH in H.
    + rewrite decide_True by done.
      destruct (AddNode ctx _ _ w) as [[[err|] c1] w1].
      * injection H as <- <- <- <-. split; [done|].
        exists 0, (normalize e), (lb_Hosts (client l)), [].
        split; [done|]. split; [constructor|done].
      * destruct (converge _ ctx rest _ w1) as [[[r2 l2] w2] cs2] eqn:Hrest.
        injection H as <- <- <- <-.
        destruct (IH _ _ _ _ _ _ Hrest) as [Hm Hr]. simpl in Hm, Hr.
        split; [done|]. destruct r2 as [err|].
        -- destruct Hr as (j & h & hosts & cs0 & Hj & Hcs0 & ->).
           exists (S j), h, hosts,
             (AddNodeCall (lb_Hosts (client l))
                {| ReqHost := normalize e |} None :: cs0).
           split; [done|]. split; [|done].
           simpl. constructor; [by eexists|done].
        -- constructor; [by eexists|done].
Qed.

(** The first join request goes out from the client as the loop found
    it. *)
Lemma converge_first ctx (endpoints : list string) :
  ∀ (l : Locals) w r l' w' c cs,
    converge AddNode ctx endpoints l w = (r, l', w', c :: cs) →
    ∃ req err, c = AddNodeCall (lb_Hosts (client l)) req err.
Proof.
  induction endpoints as [|e rest IH]; intros l w r l' w' c cs H; simpl in H.
  - done.
  - destruct (decide _); [by eapply IH|].
    destruct (AddNode ctx _ _ w) as [[[err|] c1] w1].
    + injection H as _ _ _ <- _. by eexists _, _.
    + destruct (converge _ ctx rest _ w1) as [[[r2 l2] w2] cs2].
      injection H as _ _ _ <- _. by eexists _, _.
Qed.

(** The calls of the discovery loop are status queries, those of the
    convergence loop are join requests. *)
Lemma discover_joined ctx (endpoints : list string) (l : Locals) w flow l' w' cs :
  discover ClusterStatus ctx endpoints l w = (flow, l', w', cs) →
  joined cs = [].
Proof.
  intros (cs0 & Hall & _ & Hflow)%discover_inv.
  pose proof (joined_standalone _ Hall) as H0. destruct flow.
  - destruct Hflow as (e & _ & -> & _). by rewrite joined_app, H0.
  - destruct Hflow as (e & st & _ & -> & _). by rewrite joined_app, H0.
  - by destruct Hflow as (-> & _).
Qed.

Lemma converge_probed ctx (endpoints : list string) (l : Locals) w r l' w' cs :
  converge AddNode ctx endpoints l w = (r, l', w', cs) →
  probed cs = [].
Proof.
  intros [_ Hr]%converge_inv. destruct r as [err|].
  - destruct Hr as (j & h & hosts & cs0 & _ & Hcs0 & ->).
    by rewrite probed_app, (probed_asked _ _ Hcs0).
  - by eapply probed_asked.
Qed.

(** A loop returns an error exactly when one of its calls failed, and
    the error is that of the call. *)
Lemma discover_failure ctx (endpoints : list string) (l : Locals) w flow l' w' cs e :
  discover ClusterStatus ctx endpoints l w = (flow, l', w', cs) →
  (∃ c, c ∈ cs ∧ failure c = Some e) ↔ flow = LoopReturn e.
Proof.
  intros (cs0 & Hall & _ & Hflow)%discover_inv.
  assert (H0 : ∀ c, c ∈ cs0 → failure c = None)
    by (intros c Hc; by eapply failure_standalone).
  destruct flow.
  - destruct Hflow as (e' & _ & -> & _). split.
    + intros (c & [Hc| ->%list_elem_of_singleton]%elem_of_app & Hf).
      * rewrite (H0 _ Hc) in Hf. done.
      * simpl in Hf. congruence.
    + intros [= ->]. eexists. split; [apply elem_of_app; right; by left|done].
  - destruct Hflow as (e' & st & _ & -> & _). split; [|done].
    intros (c & [Hc| ->%list_elem_of_singleton]%elem_of_app & Hf); [|done].
    rewrite (H0 _ Hc) in Hf. done.
  - destruct Hflow as (-> & _). split; [|done].
    intros (c & Hc & Hf). rewrite (H0 _ Hc) in Hf. done.
Qed.


(** *** The four ways a call of [Join] goes *)

Lemma Join_case ctx conf w :
  JoinCase NewClient ClusterStatus AddNode map_keys ctx conf w (join ctx conf w).
Proof.
  unfold Join. destruct (Nat.leb_spec (length (Endpoints conf)) 1) as [Hn|Hn].
  - by constructor.
  - destruct (NewClient conf) as [err|c] eqn:Hc; [by constructor|].
    destruct (discover _ ctx _ _ w) as [[[flow l1] w1] cs1] eqn:Hd.
    assert (Hconv : (∀ e, flow ≠ LoopReturn e) →
      JoinCase NewClient ClusterStatus AddNode map_keys ctx conf w
        match elect (Endpoints conf) l1 with
        | Some l0 =>
            let l2 := with_Hosts (map_keys (clusterNodes l0)) l0 in
            let '(err, l3, w0, calls2) :=
              converge AddNode ctx (Endpoints conf) l2 w1 in
            {| outcome := Return err; locals := Some l3; world := w0;
               calls := NewClientCall None :: cs1 ++ calls2 |}
        | None =>
            {| outcome := Panic; locals := Some l1; world := w1;
               calls := NewClientCall None :: cs1 |}
        end).
    { intros Hflow.
      destruct (elect_is_Some (Endpoints conf) l1) as [l2 Hl2]; [lia|].
      rewrite Hl2. cbv zeta.
      destruct (converge _ ctx _ _ w1) as [[[err l3] w2] cs2] eqn:Hv.
      by eapply JoinConverge. }
    destruct flow; [by eapply JoinNoStatus|by apply Hconv..].
Qed.

(** The hosts asked to join are the outsiders, up to the one whose
    request failed. *)
Lemma converge_joined ctx (endpoints : list string) (l : Locals) w r l' w' cs :
  converge AddNode ctx endpoints l w = (r, l', w', cs) →
  match r with
  | None => joined cs = outsiders (clusterNodes l) endpoints
  | Some _ =>
      ∃ j h, outsiders (clusterNodes l) endpoints !! j = Some h ∧
             joined cs = take (S j) (outsiders (clusterNodes l) endpoints)
  end.
Proof.
  intros [_ Hr]%converge_inv. destruct r as [err|].
  - destruct Hr as (j & h & hosts & cs0 & Hj & Hcs0 & ->).
    exists j, h. split; [done|].
    rewrite joined_app, (joined_asked _ _ Hcs0). simpl. by erewrite take_S_r.
  - by apply joined_asked.
Qed.

Lemma converge_joined_outside ctx (endpoints : list string) (l : Locals) w r l' w' cs h :
  converge AddNode ctx endpoints l w = (r, l', w', cs) →
  h ∈ joined cs → h ∉ clusterNodes l.
Proof.
  intros Hr%converge_joined Hh.
  cut (h ∈ outsiders (clusterNodes l) endpoints).
  { by intros [? _]%elem_of_outsiders. }
  destruct r as [err|].
  - destruct Hr as (j & h' & _ & Hj). rewrite Hj in Hh.
    by eapply subseteq_take.
  - by rewrite <- Hr.
Qed.

Lemma converge_no_query ctx (endpoints : list string) (l : Locals) w r l' w' cs hosts answer :
  converge AddNode ctx endpoints l w = (r, l', w', cs) →
  ClusterStatusCall hosts answer ∉ cs.
Proof.
  intros [_ Hr]%converge_inv Hin. destruct r as [err|].
  - destruct Hr as (j & h & hosts' & cs0 & _ & Hcs0 & ->).
    apply elem_of_app in Hin as [Hin|[=]%list_elem_of_singleton].
    by destruct (asked_request _ _ _ Hcs0 Hin) as (? & ? & [=]).
  - by destruct (asked_request _ _ _ Hr Hin) as (? & ? & [=]).
Qed.

(** *** Trivial lists *)

(** C6: with at most one endpoint [Join] returns nil at once: no client
    is built (so there is no routing table to change), the world is as it
    was, and no call of any kind is issued. *)
Theorem Join_trivial ctx conf w :
  length (Endpoints conf) ≤ 1 →
  Join NewClient ClusterStatus AddNode map_keys ctx conf w
  = {| outcome := Return None; locals := None; world := w; calls := [] |}.
Proof.
  intros Hn. unfold Join.
  by destruct (Nat.leb_spec (length (Endpoints conf)) 1); [|lia].
Qed.

(** *** Errors *)


(** C7: when a status query fails, it is the query of some endpoint [k]
    after [k] standalone answers, it is the last call [Join] issues,
    [Join] returns its error, and no join request is ever sent. *)
Theorem Join_status_error ctx conf w hosts err :
  ClusterStatusCall hosts (inl err) ∈ calls (join ctx conf w) →
  outcome (join ctx conf w) = Return (Some err) ∧
  joined (calls (join ctx conf w)) = [] ∧
  ∃ (cs0 : list Call) ep,
    Forall standalone cs0 ∧
    Endpoints conf !! length cs0 = Some ep ∧
    hosts = [normalize ep] ∧
    calls (join ctx conf w)
    = NewClientCall None :: cs0 ++ [ClusterStatusCall hosts (inl err)].
Proof.
  destruct (Join_case ctx conf w)
    as [Hn|e0 Hn Hc|c e0 l1 w1 cs1 Hn Hc Hd
       |c flow l1 w1 cs1 l2 r l3 w2 cs2 Hn Hc Hd Hflow He Hv]; simpl.
  - by intros ?%elem_of_nil.
  - by intros [=]%list_elem_of_singleton.
  - intros [[=]|Hin]%elem_of_cons.
    assert (LoopReturn e0 = LoopReturn err) as [= ->].
    { eapply discover_failure; [done|]. by eexists. }
    rewrite (discover_joined _ _ _ _ _ _ _ _ Hd). do 2 (split; [done|]).
    apply discover_inv in Hd as (cs0 & Hall & _ & ep & Hep & -> & _).
    exists cs0, ep. apply elem_of_app in Hin as [Hin|[= ->]%list_elem_of_singleton].
    + by pose proof (failure_standalone _ _ Hall Hin).
    + done.
  - intros [[=]|[Hin|Hin]%elem_of_app]%elem_of_cons; exfalso.
    + eapply Hflow, discover_failure; [done|]. by eexists.
    + by apply (converge_no_query _ _ _ _ _ _ _ _ _ _ Hv) in Hin.
Qed.

(** C8: when a join request fails, it is the request for the [j]-th
    outsider (counting from 0), [Join] returns its error, and it is the
    last call issued: the outsiders before it were asked to join and
    stay asked, those after it are never asked, and nothing is undone. *)
Theorem Join_AddNode_error ctx conf w hosts req err :
  AddNodeCall hosts req (Some err) ∈ calls (join ctx conf w) →
  outcome (join ctx conf w) = Return (Some err) ∧
  ∃ l j (before : list Call),
    locals (join ctx conf w) = Some l ∧
    outsiders (clusterNodes l) (Endpoints conf) !! j = Some (ReqHost req) ∧
    joined (calls (join ctx conf w))
    = take (S j) (outsiders (clusterNodes l) (Endpoints conf)) ∧
    calls (join ctx conf w) = before ++ [AddNodeCall hosts req (Some err)] ∧
    (∀ c, c ∈ before → failure c = None).
Proof.
  destruct (Join_case ctx conf w)
    as [Hn|e0 Hn Hc|c e0 l1 w1 cs1 Hn Hc Hd
       |c flow l1 w1 cs1 l2 r l3 w2 cs2 Hn Hc Hd Hflow He Hv]; simpl.
  - by intros ?%elem_of_nil.
  - by intros [=]%list_elem_of_singleton.
  - intros [[=]|Hin%elem_of_joined]%elem_of_cons.
    rewrite (discover_joined _ _ _ _ _ _ _ _ Hd) in Hin.
    by apply elem_of_nil in Hin.
  - assert (Hok : ∀ c', c' ∈ cs1 → failure c' = None).
    { intros c' Hc'. destruct (failure c') as [e'|] eqn:Hf; [|done].
      exfalso. eapply Hflow, discover_failure; [done|]. by exists c'. }
    intros [[=]|[Hin|Hin]%elem_of_app]%elem_of_cons.
    { by pose proof (Hok _ Hin). }
    rewrite joined_app, (discover_joined _ _ _ _ _ _ _ _ Hd). simpl.
    apply converge_inv in Hv as [Hm Hr]. simpl in Hm, Hr.
    rewrite <- Hm in Hr. destruct r as [e1|].
    + destruct Hr as (j & h & hosts' & cs0 & Hj & Hcs0 & ->).
      apply elem_of_app in Hin as [Hin|[= -> -> ->]%list_elem_of_singleton].
      { by destruct (asked_request _ _ _ Hcs0 Hin) as (? & ? & [=]). }
      split; [done|].
      exists l3, j, (NewClientCall None :: cs1 ++ cs0). split; [done|].
      split; [done|]. split; [|split].
      * rewrite joined_app, (joined_asked _ _ Hcs0). simpl.
        by erewrite take_S_r.
      * by rewrite app_assoc.
      * intros c' [->|[Hc'|Hc']%elem_of_app]%elem_of_cons; [done|by apply Hok|].
        by eapply failure_asked.
    + by destruct (asked_request _ _ _ Hr Hin) as (? & ? & [=]).
Qed.

(** *** Convergence *)

(** C3: once the membership set is there, no host in it is ever sent a
    join request.  When [Join] returns nil the join requests are, in list
    order, the normalized endpoints outside the set, one request for each
    list entry: a host outside the set is asked to join as often as the
    list names it. *)
Theorem Join_AddNode_calls ctx conf w l :
  locals (join ctx conf w) = Some l →
  (∀ h, h ∈ clusterNodes l → h ∉ joined (calls (join ctx conf w))) ∧
  (outcome (join ctx conf w) = Return None →
   joined (calls (join ctx conf w))
   = outsiders (clusterNodes l) (Endpoints conf) ∧
   ∀ h, h ∉ clusterNodes l →
        occurrences h (joined (calls (join ctx conf w)))
        = occurrences h (normalize <$> Endpoints conf)).
Proof.
  destruct (Join_case ctx conf w)
    as [Hn|e0 Hn Hc|c e0 l1 w1 cs1 Hn Hc Hd
       |c flow l1 w1 cs1 l2 r l3 w2 cs2 Hn Hc Hd Hflow He Hv]; simpl; try done.
  - intros [= <-]. rewrite (discover_joined _ _ _ _ _ _ _ _ Hd).
    split; [|done]. intros h _. apply not_elem_of_nil.
  - intros [= <-]. rewrite joined_app, (discover_joined _ _ _ _ _ _ _ _ Hd).
    simpl. pose proof Hv as [Hm _]%converge_inv. simpl in Hm. rewrite Hm.
    split.
    + intros h Hh Hj. by eapply converge_joined_outside.
    + intros [= ->]. apply converge_joined in Hv. simpl in Hv.
      split; [done|]. intros h Hh. rewrite Hv.
      by apply occurrences_outsiders.
Qed.

(** C9: from the election on, the membership set stays as it is: after
    any number of rounds of the convergence loop, and at the end of
    [Join], it is the set the election left, and no host that was sent a
    join request is in it. *)
Theorem Join_membership_unchanged ctx conf w c flow l1 w1 cs1 l2 :
  1 < length (Endpoints conf) →
  NewClient conf = inr c →
  discover ClusterStatus ctx (Endpoints conf) (fresh c) w
    = (flow, l1, w1, cs1) →
  (∀ e, flow ≠ LoopReturn e) →
  elect (Endpoints conf) l1 = Some l2 →
  (∀ k r lk wk csk,
     converge AddNode ctx (take k (Endpoints conf))
       (with_Hosts (map_keys (clusterNodes l2)) l2) w1 = (r, lk, wk, csk) →
     clusterNodes lk = clusterNodes l2) ∧
  ∃ l, locals (join ctx conf w) = Some l ∧
       clusterNodes l = clusterNodes l2 ∧
       ∀ h, h ∈ joined (calls (join ctx conf w)) → h ∉ clusterNodes l.
Proof.
  intros Hn Hc Hd Hflow He. split.
  { by intros k r lk wk csk [Hm _]%converge_inv. }
  destruct (Join_case ctx conf w)
    as [Hn'|e0 Hn' Hc'|c' e0 l1' w1' cs1' Hn' Hc' Hd'
       |c' flow' l1' w1' cs1' l2' r l3 w2 cs2 Hn' Hc' Hd' Hflow' He' Hv]; simpl.
  - lia.
  - congruence.
  - rewrite Hc in Hc'. injection Hc' as <-. rewrite Hd in Hd'.
    injection Hd' as -> _ _ _. by destruct (Hflow e0).
  - rewrite Hc in Hc'. injection Hc' as <-. rewrite Hd in Hd'.
    injection Hd' as <- <- <- <-. rewrite He in He'. injection He' as <-.
    pose proof Hv as [Hm _]%converge_inv. simpl in Hm.
    exists l3. split; [done|]. split; [done|].
    rewrite joined_app, (discover_joined _ _ _ _ _ _ _ _ Hd). simpl.
    intros h Hh. rewrite Hm.
    by eapply (converge_joined_outside _ _ _ _ _ _ _ _ _ Hv).
Qed.

(** *** Discovery and election *)

(** C5: when every status query [Join] issued was answered with a total
    membership of 1, every endpoint was queried, in list order, and the
    membership set is the singleton of the normalized first endpoint. *)
Theorem Join_all_standalone ctx conf w l :
  locals (join ctx conf w) = Some l →
  (∀ hosts answer,
     ClusterStatusCall hosts answer ∈ calls (join ctx conf w) →
     ∃ status, answer = inr status ∧ total status = 1) →
  probed (calls (join ctx conf w)) = probe <$> Endpoints conf ∧
  ∃ first, Endpoints conf !! 0 = Some first ∧
           clusterNodes l = {[ normalize first ]}.
Proof.
  destruct (Join_case ctx conf w)
    as [Hn|e0 Hn Hc|c e0 l1 w1 cs1 Hn Hc Hd
       |c flow l1 w1 cs1 l2 r l3 w2 cs2 Hn Hc Hd Hflow He Hv]; simpl; try done.
  - intros _ Hall. exfalso.
    apply discover_inv in Hd as (cs0 & _ & _ & ep & _ & -> & _).
    destruct (Hall (probe ep) (inl e0)) as (status & [=] & _).
    apply elem_of_cons; right. apply elem_of_app; right. by left.
  - intros [= <-] Hall. simpl.
    pose proof Hv as [Hm3 _]%converge_inv. simpl in Hm3. rewrite Hm3.
    rewrite probed_app, (converge_probed _ _ _ _ _ _ _ _ Hv), app_nil_r.
    apply discover_inv in Hd as (cs0 & _ & Hp & Hd). destruct flow.
    + by destruct (Hflow err).
    + exfalso. destruct Hd as (ep & status & _ & -> & Ht & _).
      destruct (Hall (probe ep) (inr status)) as (status' & [= <-] & Ht').
      * apply elem_of_cons; right. apply elem_of_app; left.
        apply elem_of_app; right. by left.
      * done.
    + destruct Hd as (-> & Hlen & Hm). split.
      * by rewrite Hp, Hlen, firstn_all.
      * apply elect_inv in He as [_ [[Hne _]|[_ (first & H0 & ->)]]].
        -- by destruct Hne.
        -- by exists first.
Qed.

(** C2: let the endpoints before [e] all answer standalone and let [e]
    answer with a total membership other than 1.  Then discovery stops at
    [e] with the membership set made of exactly the hosts [e] reported,
    whatever endpoints follow [e] in the list: they are not queried.
    [Join] keeps that set as its membership set unless it is empty. *)
Theorem discover_first_cluster_wins ctx c w pre e l1 w1 cs1 status w2 :
  discover ClusterStatus ctx pre (fresh c) w = (LoopDone, l1, w1, cs1) →
  ClusterStatus ctx (set_Hosts [normalize e] (client l1)) w1 = (inr status, w2) →
  total status ≠ 1 →
  ∃ l',
    (∀ h, h ∈ clusterNodes l' ↔ h ∈ reported status) ∧
    (∀ post,
       discover ClusterStatus ctx (pre ++ e :: post) (fresh c) w
       = (LoopBreak, l', w2,
          cs1 ++ [ClusterStatusCall [normalize e] (inr status)])) ∧
    (∀ conf post,
       NewClient conf = inr c →
       Endpoints conf = pre ++ e :: post →
       1 < length (Endpoints conf) →
       total status ≠ 0 →
       ∃ l, locals (join ctx conf w) = Some l ∧
            clusterNodes l = clusterNodes l' ∧
            probed (calls (join ctx conf w)) = probe <$> (pre ++ [e])).
Proof.
  intros Hpre Hq Ht.
  set (l' := with_nodes (list_to_set (reported status) ∪ clusterNodes l1)
               (with_Hosts [normalize e] l1)).
  assert (Hm : ∀ h, h ∈ clusterNodes l' ↔ h ∈ reported status).
  { intros h. simpl.
    pose proof Hpre as (cs0 & _ & _ & _ & _ & ->)%discover_inv. simpl.
    rewrite union_empty_r_L. apply elem_of_list_to_set. }
  assert (Hd : ∀ post,
    discover ClusterStatus ctx (pre ++ e :: post) (fresh c) w
    = (LoopBreak, l', w2, cs1 ++ [ClusterStatusCall [normalize e] (inr status)])).
  { intros post. rewrite (discover_app _ _ _ _ _ _ _ _ Hpre). simpl.
    unfold normalize in Hq. rewrite Hq. fold (total status).
    destruct (Nat.eqb_spec (total status) 1) as [|_]; [done|].
    by rewrite record_reported. }
  exists l'. do 2 (split; [done|]).
  intros conf post Hc Heps Hn H0.
  destruct (Join_case ctx conf w)
    as [Hn'|e0 Hn' Hc'|c' e0 l0 w0 cs0 Hn' Hc' Hd'
       |c' flow l0 w0 cs0 l2 r l3 w3 cs2 Hn' Hc' Hd' Hflow He Hv]; simpl.
  - lia.
  - congruence.
  - rewrite Hc in Hc'. injection Hc' as <-. by rewrite Heps, Hd in Hd'.
  - rewrite Hc in Hc'. injection Hc' as <-. rewrite Heps, Hd in Hd'.
    injection Hd' as <- <- <- <-.
    pose proof Hv as [Hm3 _]%converge_inv. simpl in Hm3.
    apply elect_inv in He as [_ [[_ Hl2]|[Hempty _]]].
    + eexists. split; [done|]. split; [by rewrite Hm3|].
      rewrite !probed_app, (converge_probed _ _ _ _ _ _ _ _ Hv), app_nil_r.
      apply discover_inv in Hpre as (cs' & _ & Hp & -> & Hlen & _).
      rewrite Hp, Hlen, firstn_all. simpl. by rewrite fmap_app.
    + exfalso. destruct (reported status) as [|h hs] eqn:Hr.
      * apply (f_equal length) in Hr. by rewrite reported_length in Hr.
      * apply (not_elem_of_empty (C:=gset string) h). rewrite <- Hempty.
        apply Hm. by left.
Qed.

(** C4: when discovery finds a cluster, the membership set receives the
    up hosts and the down hosts of the answer exactly as the answer
    spells them; nothing is stripped from them. *)
Theorem discover_records_reported_hosts ctx endpoints (l : Locals) w l' w' cs :
  discover ClusterStatus ctx endpoints l w = (LoopBreak, l', w', cs) →
  ∃ e status,
    last cs = Some (ClusterStatusCall [normalize e] (inr status)) ∧
    ∀ h, h ∈ clusterNodes l' ↔
         h ∈ Host <$> NodesUp status ∨ h ∈ NodesDown status ∨
         h ∈ clusterNodes l.
Proof.
  intros (cs0 & _ & _ & e & status & _ & -> & _ & Hm)%discover_inv.
  exists e, status. split; [by rewrite last_snoc|].
  intros h. rewrite Hm. apply elem_of_reported.
Qed.

(** C10: a status answer that names no host at all ends discovery with
    the membership set still empty; the election then makes the
    normalized first endpoint the only member; it is never asked to
    join, and when [Join] returns nil every endpoint whose normalized
    host differs from it has been asked to join. *)
Theorem Join_empty_status ctx conf w hosts status :
  ClusterStatusCall hosts (inr status) ∈ calls (join ctx conf w) →
  total status = 0 →
  (∃ c l1 w1 cs1,
     NewClient conf = inr c ∧
     discover ClusterStatus ctx (Endpoints conf) (fresh c) w
       = (LoopBreak, l1, w1, cs1) ∧
     last cs1 = Some (ClusterStatusCall hosts (inr status)) ∧
     clusterNodes l1 = ∅) ∧
  ∃ first l,
    Endpoints conf !! 0 = Some first ∧
    locals (join ctx conf w) = Some l ∧
    clusterNodes l = {[ normalize first ]} ∧
    (normalize first ∉ joined (calls (join ctx conf w))) ∧
    (outcome (join ctx conf w) = Return None →
     ∀ ep, ep ∈ Endpoints conf → normalize ep ≠ normalize first →
           normalize ep ∈ joined (calls (join ctx conf w))).
Proof.
  intros Hin H0.
  assert (Hno : ∀ cs0 : list Call, Forall standalone cs0 →
                  ClusterStatusCall hosts (inr status) ∉ cs0).
  { intros cs0 Hall (st & [= <-] & Ht)%(standalone_answer _ _ _ Hall). lia. }
  revert Hin. destruct (Join_case ctx conf w)
    as [Hn|e0 Hn Hc|c e0 l1 w1 cs1 Hn Hc Hd
       |c flow l1 w1 cs1 l2 r l3 w2 cs2 Hn Hc Hd Hflow He Hv]; simpl.
  - by intros ?%elem_of_nil.
  - by intros [=]%list_elem_of_singleton.
  - intros [[=]|Hin]%elem_of_cons. exfalso.
    apply discover_inv in Hd as (cs0 & Hall & _ & ep & _ & -> & _).
    apply elem_of_app in Hin as [Hin|[=]%list_elem_of_singleton].
    by apply (Hno _ Hall).
  - intros [[=]|[Hin|Hin]%elem_of_app]%elem_of_cons;
      [|by apply (converge_no_query _ _ _ _ _ _ _ _ _ _ Hv) in Hin].
    pose proof Hd as (cs0 & Hall & _ & Hshape)%discover_inv. destruct flow.
    + by destruct (Hflow err).
    + destruct Hshape as (ep & st & _ & -> & _ & Hm).
      apply elem_of_app in Hin as [Hin|[= -> ->]%list_elem_of_singleton];
        [by apply (Hno _ Hall) in Hin|].
      rewrite (reported_nil _ H0) in Hm. simpl in Hm.
      rewrite union_empty_l_L in Hm.
      split.
      { do 4 eexists. do 2 (split; [done|]). by rewrite last_snoc. }
      apply elect_inv in He as [_ [[Hne _]|[_ (first & Hfirst & Hl2)]]];
        [by destruct Hne|].
      pose proof Hv as [Hm3 _]%converge_inv. simpl in Hm3.
      exists first, l3. do 2 (split; [done|]).
      split; [by rewrite Hm3|]. simpl.
      rewrite joined_app, joined_app, (joined_standalone _ Hall). simpl.
      split.
      * intros Hj. eapply converge_joined_outside in Hj; [|done].
        simpl in Hj. rewrite Hl2 in Hj. by apply Hj, elem_of_singleton.
      * intros [= ->] ep' Hep Hne. apply converge_joined in Hv. simpl in Hv.
        rewrite Hv. apply elem_of_outsiders. rewrite Hl2.
        split; [by intros ?%elem_of_singleton|]. by exists ep'.
    + destruct Hshape as (-> & _). by apply (Hno _ Hall) in Hin.
Qed.

(** *** Further properties of [Join] *)

Lemma discover_probed ctx (endpoints : list string) (l : Locals) w flow l' w' cs :
  discover ClusterStatus ctx endpoints l w = (flow, l', w', cs) →
  ∃ n, n ≤ length endpoints ∧ probed cs = probe <$> take n endpoints.
Proof.
  intros (cs0 & _ & Hp & Hflow)%discover_inv. destruct flow.
  - destruct Hflow as (e & He & -> & _). exists (S (length cs0)). split.
    { apply lookup_lt_Some in He. lia. }
    rewrite probed_app, Hp. simpl. erewrite take_S_r by done.
    by rewrite fmap_app.
  - destruct Hflow as (e & status & He & -> & _). exists (S (length cs0)).
    split. { apply lookup_lt_Some in He. lia. }
    rewrite probed_app, Hp. simpl. erewrite take_S_r by done.
    by rewrite fmap_app.
  - destruct Hflow as (-> & Hlen & _). exists (length cs0). split; [lia|done].
Qed.

Lemma discover_queries ctx (endpoints : list string) (l : Locals) w flow l' w' cs :
  discover ClusterStatus ctx endpoints l w = (flow, l', w', cs) →
  Forall (λ c : Call, ∃ hosts answer, c = ClusterStatusCall hosts answer) cs.
Proof.
  intros (cs0 & Hall & _ & Hflow)%discover_inv.
  assert (H0 : Forall (λ c : Call, ∃ hosts answer,
                         c = ClusterStatusCall hosts answer) cs0).
  { eapply Forall_impl; [exact Hall|].
    intros c (hosts & status & -> & _). by eexists _, _. }
  destruct flow.
  - destruct Hflow as (e & _ & -> & _). apply Forall_app. split; [done|].
    apply Forall_singleton. by eexists _, _.
  - destruct Hflow as (e & status & _ & -> & _). apply Forall_app.
    split; [done|]. apply Forall_singleton. by eexists _, _.
  - by destruct Hflow as (-> & _).
Qed.

Lemma converge_requests ctx (endpoints : list string) (l : Locals) w r l' w' cs :
  converge AddNode ctx endpoints l w = (r, l', w', cs) →
  Forall (λ c : Call, ∃ hosts req err, c = AddNodeCall hosts req err) cs.
Proof.
  intros [_ Hr]%converge_inv.
  assert (H0 : ∀ (cs0 : list Call) hs, asked cs0 hs →
            Forall (λ c : Call, ∃ hosts req err, c = AddNodeCall hosts req err)
              cs0).
  { intros cs0 hs H. apply Forall_forall. intros c Hc.
    destruct (asked_request _ _ _ H Hc) as (hosts & h & ->).
    by eexists _, _, _. }
  destruct r as [err|].
  - destruct Hr as (j & h & hosts & cs0 & _ & Hcs0 & ->).
    apply Forall_app. split; [by eapply H0|].
    apply Forall_singleton. by eexists _, _, _.
  - by eapply H0.
Qed.

Lemma converge_members ctx (endpoints : list string) (l : Locals) w :
  (∀ ep, ep ∈ endpoints → normalize ep ∈ clusterNodes l) →
  converge AddNode ctx endpoints l w = (None, l, w, []).
Proof.
  induction endpoints as [|e rest IH]; intros Hall; simpl; [done|].
  fold (normalize e). rewrite decide_True by (apply Hall; by left).
  apply IH. intros ep Hep. apply Hall. by right.
Qed.

Lemma discover_normalized ctx (eps1 : list string) :
  ∀ (eps2 : list string) (l : Locals) w,
    normalize <$> eps1 = normalize <$> eps2 →
    discover ClusterStatus ctx eps1 l w = discover ClusterStatus ctx eps2 l w.
Proof.
  induction eps1 as [|e1 eps1 IH]; intros [|e2 eps2] l w Heq; try done.
  injection Heq as He Heq. unfold normalize in He. simpl. rewrite He.
  destruct (ClusterStatus ctx _ w) as [[err|status] w1]; [done|].
  destruct (_ =? 1)%nat; [|done]. by rewrite (IH eps2 _ _ Heq).
Qed.

Lemma converge_normalized ctx (eps1 : list string) :
  ∀ (eps2 : list string) (l : Locals) w,
    normalize <$> eps1 = normalize <$> eps2 →
    converge AddNode ctx eps1 l w = converge AddNode ctx eps2 l w.
Proof.
  induction eps1 as [|e1 eps1 IH]; intros [|e2 eps2] l w Heq; try done.
  injection Heq as He Heq. unfold normalize in He. simpl. rewrite He.
  destruct (decide _); [by apply IH|].
  destruct (AddNode ctx _ _ w) as [[[err|] c1] w1]; [done|].
  by rewrite (IH eps2 _ _ Heq).
Qed.

Lemma elect_normalized (eps1 eps2 : list string) (l : Locals) :
  normalize <$> eps1 = normalize <$> eps2 →
  elect eps1 l = elect eps2 l.
Proof.
  intros Heq. unfold elect. destruct (_ =? 0)%nat; [|done].
  destruct eps1 as [|e1 eps1], eps2 as [|e2 eps2]; try done.
  injection Heq as He _. unfold normalize in He. simpl. by rewrite He.
Qed.

(** X3: [Join] reads the endpoints through their normalized form only:
    two configurations that give the same client and whose endpoints
    agree once the scheme is stripped make [Join] run the same way, with
    the same calls, answers and result. *)
Theorem Join_normalized ctx conf1 conf2 w :
  NewClient conf1 = NewClient conf2 →
  normalize <$> Endpoints conf1 = normalize <$> Endpoints conf2 →
  Join NewClient ClusterStatus AddNode map_keys ctx conf1 w
  = Join NewClient ClusterStatus AddNode map_keys ctx conf2 w.
Proof.
  intros Hc Heq. unfold Join.
  assert (Hlen : length (Endpoints conf1) = length (Endpoints conf2)).
  { by rewrite <- (length_fmap normalize), Heq, length_fmap. }
  rewrite Hlen, Hc. destruct (_ <=? 1)%nat; [done|].
  destruct (NewClient conf2) as [err|c]; [done|].
  rewrite (discover_normalized _ _ _ _ _ Heq).
  destruct (discover _ ctx _ _ w) as [[[flow l1] w1] cs1].
  rewrite (elect_normalized _ _ _ Heq).
  destruct flow; [done|..];
    (destruct (elect _ l1) as [l2|]; [|done]);
    by rewrite (converge_normalized _ _ _ _ _ Heq).
Qed.

(** X4: the status queries of [Join] go to a prefix of the endpoint list,
    in list order, one query for each entry of the prefix, each sent with
    the routing table holding that one normalized endpoint. *)
Theorem Join_probes_in_order ctx conf w :
  ∃ n, n ≤ length (Endpoints conf) ∧
       probed (calls (join ctx conf w)) = probe <$> take n (Endpoints conf).
Proof.
  destruct (Join_case ctx conf w)
    as [Hn|e0 Hn Hc|c e0 l1 w1 cs1 Hn Hc Hd
       |c flow l1 w1 cs1 l2 r l3 w2 cs2 Hn Hc Hd Hflow He Hv]; simpl.
  - exists 0. split; [lia|done].
  - exists 0. split; [lia|done].
  - by eapply discover_probed.
  - rewrite probed_app, (converge_probed _ _ _ _ _ _ _ _ Hv), app_nil_r.
    by eapply discover_probed.
Qed.

(** X5: the calls of [Join] come in phases: nothing at all, or the
    construction of the client first, then status queries only, then join
    requests only.  No status query follows a join request, and the
    client is built once. *)
Theorem Join_call_order ctx conf w :
  calls (Join NewClient ClusterStatus AddNode map_keys ctx conf w) = [] ∨
  ∃ r (qs js : list Call),
    calls (join ctx conf w) = NewClientCall r :: qs ++ js ∧
    Forall (λ c, ∃ hosts answer, c = ClusterStatusCall hosts answer) qs ∧
    Forall (λ c, ∃ hosts req err, c = AddNodeCall hosts req err) js.
Proof.
  destruct (Join_case ctx conf w)
    as [Hn|e0 Hn Hc|c e0 l1 w1 cs1 Hn Hc Hd
       |c flow l1 w1 cs1 l2 r l3 w2 cs2 Hn Hc Hd Hflow He Hv]; simpl.
  - by left.
  - right. by exists (Some e0), [], [].
  - right. exists None, cs1, []. rewrite app_nil_r. split; [done|].
    split; [by eapply discover_queries|done].
  - right. exists None, cs1, cs2. split; [done|].
    split; [by eapply discover_queries|by eapply converge_requests].
Qed.

(** X6: when the first endpoint already reports a cluster that holds
    every listed endpoint, [Join] returns nil after that single status
    query: no join request is sent and the world is as the query left
    it. *)
Theorem Join_all_members ctx conf w c e rest status w1 :
  1 < length (Endpoints conf) →
  NewClient conf = inr c →
  Endpoints conf = e :: rest →
  ClusterStatus ctx (set_Hosts [normalize e] c) w = (inr status, w1) →
  total status ≠ 1 →
  (∀ ep, ep ∈ Endpoints conf → normalize ep ∈ reported status) →
  outcome (join ctx conf w) = Return None ∧
  world (join ctx conf w) = w1 ∧
  calls (join ctx conf w)
  = [NewClientCall None; ClusterStatusCall [normalize e] (inr status)].
Proof.
  intros Hn Hc Heps Hq Ht Hall.
  destruct (Join_case ctx conf w)
    as [Hn'|e0 Hn' Hc'|c' e0 l1 w1' cs1 Hn' Hc' Hd
       |c' flow l1 w1' cs1 l2 r l3 w2 cs2 Hn' Hc' Hd Hflow He Hv]; simpl;
    [lia|congruence|..];
    rewrite Hc in Hc'; injection Hc' as <-;
    rewrite Heps in Hd; simpl in Hd; unfold normalize in Hq; rewrite Hq in Hd;
    fold (total status) in Hd;
    destruct (Nat.eqb_spec (total status) 1) as [|_]; try done.
  injection Hd as <- <- <- <-.
  assert (Hm : ∀ ep, ep ∈ Endpoints conf → normalize ep ∈ clusterNodes l2).
  { intros ep Hep. apply elect_inv in He as [_ [[_ ->]|[Hempty _]]]; simpl in *.
    - rewrite record_reported, elem_of_union, elem_of_list_to_set.
      left. by apply Hall.
    - exfalso. apply (not_elem_of_empty (C:=gset string) (normalize ep)).
      rewrite <- Hempty, record_reported, elem_of_union, elem_of_list_to_set.
      left. by apply Hall. }
  rewrite converge_members in Hv by done. by injection Hv as <- <- <- <-.
Qed.

(** X7: when the client cannot be built, [Join] returns that error and
    does nothing else: no network call is issued and the world is
    untouched. *)
Theorem Join_no_client ctx conf w err :
  NewClientCall (Some err) ∈ calls (join ctx conf w) →
  Join NewClient ClusterStatus AddNode map_keys ctx conf w
  = {| outcome := Return (Some err); locals := None; world := w;
       calls := [NewClientCall (Some err)] |}.
Proof.
  destruct (Join_case ctx conf w)
    as [Hn|e0 Hn Hc|c e0 l1 w1 cs1 Hn Hc Hd
       |c flow l1 w1 cs1 l2 r l3 w2 cs2 Hn Hc Hd Hflow He Hv]; simpl.
  - by intros ?%elem_of_nil.
  - by intros [= ->]%list_elem_of_singleton.
  - intros [[=]|Hin]%elem_of_cons. exfalso.
    apply discover_queries in Hd. rewrite Forall_forall in Hd.
    by destruct (Hd _ Hin) as (? & ? & [=]).
  - intros [[=]|[Hin|Hin]%elem_of_app]%elem_of_cons; exfalso.
    + apply discover_queries in Hd. rewrite Forall_forall in Hd.
      by destruct (Hd _ Hin) as (? & ? & [=]).
    + apply converge_requests in Hv. rewrite Forall_forall in Hv.
      by destruct (Hv _ Hin) as (? & ? & ? & [=]).
Qed.

(** X9: the membership set [Join] ends with is empty exactly when a
    status query failed; a run that gets past discovery always has a
    member to route the join requests to. *)
Theorem Join_membership_empty_iff ctx conf w l :
  locals (Join NewClient ClusterStatus AddNode map_keys ctx conf w) = Some l →
  clusterNodes l = ∅ ↔
  ∃ hosts err, ClusterStatusCall hosts (inl err) ∈ calls (join ctx conf w).
Proof.
  destruct (Join_case ctx conf w)
    as [Hn|e0 Hn Hc|c e0 l1 w1 cs1 Hn Hc Hd
       |c flow l1 w1 cs1 l2 r l3 w2 cs2 Hn Hc Hd Hflow He Hv]; simpl; try done.
  - intros [= <-].
    apply discover_inv in Hd as (cs0 & _ & _ & ep & _ & -> & Hm).
    split; [|done]. intros _. exists (probe ep), e0.
    apply elem_of_cons; right. apply elem_of_app; right. by left.
  - intros [= <-]. simpl.
    pose proof Hv as [Hm3 _]%converge_inv. simpl in Hm3. rewrite Hm3. split.
    + intros Hempty. exfalso.
      apply elect_inv in He as [_ [[Hne Heq]|[_ (first & _ & Heq)]]].
      * apply Hne. by rewrite <- Heq.
      * rewrite Heq in Hempty. by apply non_empty_singleton_L in Hempty.
    + intros (hosts & err & [[=]|[Hin|Hin]%elem_of_app]%elem_of_cons); exfalso.
      * eapply Hflow, discover_failure; [done|]. by eexists.
      * by apply (converge_no_query _ _ _ _ _ _ _ _ _ _ Hv) in Hin.
Qed.

(** X10: whatever happens, the hosts asked to join are normalized
    endpoints of the list, asked in list order and at most once for each
    list entry. *)
Theorem Join_joins_in_order ctx conf w :
  joined (calls (join ctx conf w)) `sublist_of` (normalize <$> Endpoints conf).
Proof.
  destruct (Join_case ctx conf w)
    as [Hn|e0 Hn Hc|c e0 l1 w1 cs1 Hn Hc Hd
       |c flow l1 w1 cs1 l2 r l3 w2 cs2 Hn Hc Hd Hflow He Hv]; simpl;
    try apply sublist_nil_l.
  - rewrite (discover_joined _ _ _ _ _ _ _ _ Hd). apply sublist_nil_l.
  - rewrite joined_app, (discover_joined _ _ _ _ _ _ _ _ Hd). simpl.
    apply converge_joined in Hv.
    assert (Hout : ∀ m, outsiders m (Endpoints conf)
                        `sublist_of` (normalize <$> Endpoints conf))
      by (intros m; apply sublist_filter).
    destruct r as [err|].
    + destruct Hv as (j & h & _ & ->).
      etrans; [apply sublist_take|apply Hout].
    + rewrite Hv. apply Hout.
Qed.

End Properties.

(** *** Routing *)

Section Routing.

Context {Error Ctx Options Conn W : Type}.
Variable NewClient : @Config Options -> Error + @Client Conn.
Variable ClusterStatus :
  Ctx -> @Client Conn -> W -> (Error + ClusterStatusResponse) * W.
Variable AddNode :
  Ctx -> @Client Conn -> AddClusterNodeRequest -> W
  -> option Error * @Client Conn * W.
Variable map_keys : gset string -> list string.

(** Whatever the order of iteration, the keys are the keys. *)
Hypothesis map_keys_perm : ∀ m, map_keys m ≡ₚ elements m.

(** X8: the first join request goes out with the routing table holding
    exactly the members of the membership set [Join] ends with.  (The
    requests after it go out from the client as the request before left
    it.) *)
Theorem Join_first_request_routed ctx conf w l hosts h :
  locals (Join NewClient ClusterStatus AddNode map_keys ctx conf w) = Some l →
  head (routed (calls (Join NewClient ClusterStatus AddNode map_keys ctx conf w)))
    = Some hosts →
  h ∈ hosts ↔ h ∈ clusterNodes l.
Proof using map_keys_perm.
  destruct (Join_case NewClient ClusterStatus AddNode map_keys ctx conf w)
    as [Hn|e0 Hn Hc|c e0 l1 w1 cs1 Hn Hc Hd
       |c flow l1 w1 cs1 l2 r l3 w2 cs2 Hn Hc Hd Hflow He Hv]; simpl; try done.
  - intros _. by rewrite (routed_queries _ (discover_queries _ _ _ _ _ _ _ _ _ Hd)).
  - intros [= <-].
    rewrite routed_app, (routed_queries _ (discover_queries _ _ _ _ _ _ _ _ _ Hd)).
    simpl. pose proof Hv as [Hm _]%converge_inv. simpl in Hm. rewrite Hm.
    destruct cs2 as [|c2 cs2]; [done|].
    apply converge_first in Hv as (req & err & ->). simpl. intros [= <-].
    by rewrite map_keys_perm, elem_of_elements.
Qed.

End Routing.

(** ** The properties at work *)

Import Scenario.

(** One endpoint: nothing happens. *)
Lemma Join_trivial_witness :
  length (Endpoints (config ["https://a"])) ≤ 1 ∧
  run all_alone ["https://a"]
  = {| outcome := Return None; locals := None; world := []; calls := [] |}.
Proof.
  split; [simpl; lia|].
  apply (Join_trivial NewClient (ClusterStatus all_alone) (AddNode all_alone)
           elements tt (config ["https://a"]) []).
  simpl; lia.
Defined.


(** [b] times out: [Join] returns the timeout and asks nobody to join. *)
Lemma Join_status_error_witness :
  ClusterStatusCall ["b"] (inl "timeout")
    ∈ calls (run unreachable ["https://a"; "https://b"; "https://c"]) ∧
  outcome (run unreachable ["https://a"; "https://b"; "https://c"])
    = Return (Some "timeout") ∧
  joined (calls (run unreachable ["https://a"; "https://b"; "https://c"])) = [].
Proof.
  assert (H : ClusterStatusCall ["b"] (inl "timeout")
                ∈ calls (run unreachable ["https://a"; "https://b"; "https://c"])).
  { do 2 apply list_elem_of_further. apply list_elem_of_here. }
  split; [exact H|].
  destruct (Join_status_error NewClient (ClusterStatus unreachable)
              (AddNode unreachable) elements tt _ [] _ _ H) as (Ho & Hj & _).
  by split.
Defined.

(** [c] refuses: [b] was asked before it, [d] is never asked. *)
Lemma Join_AddNode_error_witness :
  AddNodeCall ["a"; "b"] {| ReqHost := "c" |} (Some "refused")
    ∈ calls (run refusing ["a"; "b"; "c"; "d"]) ∧
  outcome (run refusing ["a"; "b"; "c"; "d"]) = Return (Some "refused") ∧
  joined (calls (run refusing ["a"; "b"; "c"; "d"])) = ["b"; "c"].
Proof.
  assert (H : AddNodeCall ["a"; "b"] {| ReqHost := "c" |} (Some "refused")
                ∈ calls (run refusing ["a"; "b"; "c"; "d"])).
  { do 6 apply list_elem_of_further. apply list_elem_of_here. }
  split; [exact H|].
  destruct (Join_AddNode_error NewClient (ClusterStatus refusing)
              (AddNode refusing) elements tt _ [] _ _ _ H) as (Ho & _).
  split; [exact Ho|reflexivity].
Defined.

(** The second scenario of the specification: [x] is elected and [y]
    is asked to join, once. *)
Lemma Join_AddNode_calls_witness :
  ∃ l, locals (run all_alone ["https://x"; "https://y"]) = Some l ∧
       outcome (run all_alone ["https://x"; "https://y"]) = Return None ∧
       joined (calls (run all_alone ["https://x"; "https://y"]))
       = outsiders (clusterNodes l) ["https://x"; "https://y"].
Proof.
  eexists. split; [reflexivity|]. split; [reflexivity|].
  eapply (Join_AddNode_calls NewClient (ClusterStatus all_alone)
            (AddNode all_alone) elements tt (config ["https://x"; "https://y"]) []);
    reflexivity.
Defined.

(** The first scenario of the specification: the membership set found at
    [a] is the one [Join] ends with. *)
Lemma Join_membership_unchanged_witness :
  1 < length ["https://a"; "https://b"; "https://c"] ∧
  ∃ l, locals (run pair ["https://a"; "https://b"; "https://c"]) = Some l ∧
       clusterNodes l = {[ "a"; "b" ]} ∧
       ∀ h, h ∈ joined (calls (run pair ["https://a"; "https://b"; "https://c"])) →
            h ∉ clusterNodes l.
Proof.
  split; [simpl; lia|].
  edestruct (Join_membership_unchanged NewClient (ClusterStatus pair)
               (AddNode pair) elements tt
               (config ["https://a"; "https://b"; "https://c"]) [])
    as [_ (l & Hl & Hm & Hj)].
  - simpl; lia.
  - reflexivity.
  - reflexivity.
  - intros e; discriminate.
  - reflexivity.
  - exists l. split; [exact Hl|]. split; [|exact Hj].
    rewrite Hm. vm_compute. reflexivity.
Defined.

(** All standalone: the first endpoint is the seed. *)
Lemma Join_all_standalone_witness :
  ∃ l, locals (run all_alone ["https://x"; "https://y"]) = Some l ∧
       clusterNodes l = {[ "x" ]}.
Proof.
  eexists. split; [reflexivity|].
  edestruct (Join_all_standalone NewClient (ClusterStatus all_alone)
               (AddNode all_alone) elements tt
               (config ["https://x"; "https://y"]) [])
    as [_ (first & [= <-] & Hm)].
  - reflexivity.
  - intros hosts answer Hin. vm_compute in Hin.
    repeat (apply elem_of_cons in Hin as [Heq|Hin];
            [try discriminate Heq; injection Heq as _ ->; by eexists|]).
    by apply elem_of_nil in Hin.
  - exact Hm.
Defined.

(** [a] reports the cluster of [a] and [b]; whatever follows [a] in the
    list, discovery ends there with exactly these two hosts. *)
Lemma discover_first_cluster_wins_witness :
  ∃ l',
    (∀ h, h ∈ clusterNodes l' ↔ h ∈ ["a"; "b"]) ∧
    ∀ post,
      discover (ClusterStatus pair) tt (["https://x"] ++ "https://a" :: post)
        {| client := {| lb_Hosts := []; conn := tt |}; clusterNodes := ∅ |} []
      = (LoopBreak, l', [],
         [ClusterStatusCall ["x"] (alone "x")]
         ++ [ClusterStatusCall ["a"]
               (inr {| NodesUp := up ["a"]; NodesDown := ["b"] |})]).
Proof.
  edestruct (discover_first_cluster_wins NewClient (ClusterStatus pair)
               (AddNode pair) elements tt {| lb_Hosts := []; conn := tt |} []
               ["https://x"] "https://a")
    as (l' & Hm & Hd & _).
  - reflexivity.
  - reflexivity.
  - vm_compute. lia.
  - exists l'. split; [exact Hm|exact Hd].
Defined.

(** The hosts [a] reports are the keys of the membership set. *)
Lemma discover_records_reported_hosts_witness :
  ∃ l' cs,
    discover (ClusterStatus pair) tt ["https://a"; "https://c"]
      {| client := {| lb_Hosts := []; conn := tt |}; clusterNodes := ∅ |} []
    = (LoopBreak, l', [], cs) ∧
    "a" ∈ clusterNodes l' ∧ "b" ∈ clusterNodes l'.
Proof.
  eexists _, _. split; [reflexivity|].
  edestruct (discover_records_reported_hosts (ClusterStatus pair) tt
               ["https://a"; "https://c"]
               {| client := {| lb_Hosts := []; conn := tt |};
                  clusterNodes := ∅ |} [])
    as (e & status & Hlast & Hm).
  - reflexivity.
  - injection Hlast as _ <-.
    split; apply Hm; [left|right; left]; vm_compute; by left.
Defined.

(** [a] names no host: [a] becomes the seed; the second entry is [a]
    again and is skipped, [b] is asked to join. *)
Lemma Join_empty_status_witness :
  ClusterStatusCall ["a"] (inr {| NodesUp := []; NodesDown := [] |})
    ∈ calls (run nobody ["a"; "https://a"; "b"]) ∧
  ∃ l, locals (run nobody ["a"; "https://a"; "b"]) = Some l ∧
       clusterNodes l = {[ "a" ]} ∧
       ("a" ∉ joined (calls (run nobody ["a"; "https://a"; "b"]))) ∧
       "b" ∈ joined (calls (run nobody ["a"; "https://a"; "b"])).
Proof.
  assert (H : ClusterStatusCall ["a"] (inr {| NodesUp := []; NodesDown := [] |})
                ∈ calls (run nobody ["a"; "https://a"; "b"])).
  { apply list_elem_of_further. apply list_elem_of_here. }
  split; [exact H|].
  destruct (Join_empty_status NewClient (ClusterStatus nobody) (AddNode nobody)
              elements tt _ [] _ _ H)
    as (_ & first & l & [= <-] & Hl & Hm & Hfirst & Hrest); [reflexivity|].
  exists l. split; [exact Hl|]. split; [exact Hm|]. split; [exact Hfirst|].
  apply (Hrest eq_refl "b"); [|discriminate].
  do 2 apply list_elem_of_further. apply list_elem_of_here.
Defined.

(** ** Where the specification and the code part *)

(** C3, as the specification words it, fails in two ways.  On a list
    that names a host twice, [y] is outside the membership set and is
    asked to join twice, in a run that returns nil.  And when a join
    request is refused, the outsiders after it are not asked at all:
    [c] refuses and [d] gets no request. *)
Lemma Join_AddNode_not_exactly_once :
  (outcome (run all_alone ["https://x"; "https://y"; "https://y"]) = Return None ∧
   ¬ (∀ l ep,
        locals (run all_alone ["https://x"; "https://y"; "https://y"]) = Some l →
        ep ∈ ["https://x"; "https://y"; "https://y"] →
        (normalize ep ∈ clusterNodes l →
         occurrences (normalize ep)
           (joined (calls (run all_alone
                             ["https://x"; "https://y"; "https://y"]))) = 0) ∧
        (normalize ep ∉ clusterNodes l →
         occurrences (normalize ep)
           (joined (calls (run all_alone
                             ["https://x"; "https://y"; "https://y"]))) = 1))) ∧
  ¬ (∀ l ep,
       locals (run refusing ["a"; "b"; "c"; "d"]) = Some l →
       ep ∈ ["a"; "b"; "c"; "d"] →
       (normalize ep ∈ clusterNodes l →
        occurrences (normalize ep)
          (joined (calls (run refusing ["a"; "b"; "c"; "d"]))) = 0) ∧
       (normalize ep ∉ clusterNodes l →
        occurrences (normalize ep)
          (joined (calls (run refusing ["a"; "b"; "c"; "d"]))) = 1)).
Proof.
  split; [split; [reflexivity|]|]; intros H.
  - destruct (H {| client := {| lb_Hosts := ["x"; "y"; "y"]; conn := tt |};
                   clusterNodes := {[ "x" ]} |} "https://y") as [_ H1].
    + vm_compute. reflexivity.
    + apply list_elem_of_further, list_elem_of_here.
    + assert (Hout : normalize "https://y" ∉ ({[ "x" ]} : gset string))
        by (by intros [=]%elem_of_singleton).
      apply H1 in Hout. vm_compute in Hout. discriminate Hout.
  - destruct (H {| client := {| lb_Hosts := ["a"; "b"]; conn := tt |};
                   clusterNodes := {[ "a" ]} |} "d") as [_ H1].
    + vm_compute. reflexivity.
    + do 3 apply list_elem_of_further. apply list_elem_of_here.
    + assert (Hout : normalize "d" ∉ ({[ "a" ]} : gset string))
        by (by intros [=]%elem_of_singleton).
      apply H1 in Hout. vm_compute in Hout. discriminate Hout.
Qed.

(** C4, as the specification words it, fails when the cluster reports
    its members with the scheme: the keys of the membership set keep
    the scheme, and the normalized hosts are not in the set. *)
Lemma discover_keeps_scheme :
  ∃ l status,
    locals (run pair_with_scheme ["https://a"; "https://c"]) = Some l ∧
    ClusterStatusCall ["a"] (inr status)
      ∈ calls (run pair_with_scheme ["https://a"; "https://c"]) ∧
    total status ≠ 1 ∧
    "https://a" ∈ reported status ∧
    "https://a" ∈ clusterNodes l ∧
    normalize "https://a" ∉ clusterNodes l.
Proof.
  eexists _, _. split; [reflexivity|].
  split; [apply list_elem_of_further, list_elem_of_here|].
  split; [vm_compute; lia|]. split; [by left|].
  split; apply (bool_decide_unpack _); vm_compute; exact I.
Qed.

(** C10, as the specification words it, fails in its last part, in two
    ways.  [a] names no host and is elected.  When [b] then refuses to
    join, [c] is never asked.  And when the list names [a] a second time,
    as [https://a], that entry is not asked either, in a run that returns
    nil. *)
Lemma Join_empty_status_not_all_asked :
  ((∃ hosts status,
      ClusterStatusCall hosts (inr status)
        ∈ calls (run nobody_refusing ["https://a"; "https://b"; "https://c"]) ∧
      total status = 0) ∧
   ¬ (∀ i ep,
        0 < i → ["https://a"; "https://b"; "https://c"] !! i = Some ep →
        normalize ep
          ∈ joined (calls (run nobody_refusing
                             ["https://a"; "https://b"; "https://c"])))) ∧
  ((∃ hosts status,
      ClusterStatusCall hosts (inr status)
        ∈ calls (run nobody ["a"; "https://a"; "b"]) ∧
      total status = 0) ∧
   outcome (run nobody ["a"; "https://a"; "b"]) = Return None ∧
   ¬ (∀ i ep,
        0 < i → ["a"; "https://a"; "b"] !! i = Some ep →
        normalize ep ∈ joined (calls (run nobody ["a"; "https://a"; "b"])))).
Proof.
  split; [split|split; [|split; [reflexivity|]]].
  - eexists _, _. split; [apply list_elem_of_further, list_elem_of_here|done].
  - intros H. specialize (H 2 "https://c"). vm_compute in H.
    assert (Hc : "c" ∈ ["b"]) by (apply H; [lia|reflexivity]).
    by apply list_elem_of_singleton in Hc.
  - eexists _, _. split; [apply list_elem_of_further, list_elem_of_here|done].
  - intros H. specialize (H 1 "https://a"). vm_compute in H.
    assert (Ha : "a" ∈ ["b"]) by (apply H; [lia|reflexivity]).
    by apply list_elem_of_singleton in Ha.
Qed.

(** ** The further properties at work *)

(** The scheme in front of an endpoint makes no difference. *)
Lemma Join_normalized_witness :
  normalize <$> ["https://a"; "b"; "https://c"]
    = normalize <$> ["a"; "https://b"; "c"] ∧
  run pair ["https://a"; "b"; "https://c"] = run pair ["a"; "https://b"; "c"].
Proof.
  split; [reflexivity|].
  apply (Join_normalized NewClient (ClusterStatus pair) (AddNode pair) elements
           tt (config ["https://a"; "b"; "https://c"])
           (config ["a"; "https://b"; "c"]) []); reflexivity.
Defined.

(** [a] reports the cluster of [a] and [b], and these are the two
    endpoints listed: one query, no join request. *)
Lemma Join_all_members_witness :
  1 < length (Endpoints (config ["https://a"; "https://b"])) ∧
  outcome (run pair ["https://a"; "https://b"]) = Return None ∧
  world (run pair ["https://a"; "https://b"]) = [] ∧
  calls (run pair ["https://a"; "https://b"])
  = [NewClientCall None;
     ClusterStatusCall ["a"] (inr {| NodesUp := up ["a"]; NodesDown := ["b"] |})].
Proof.
  split; [simpl; lia|].
  apply (Join_all_members NewClient (ClusterStatus pair) (AddNode pair) elements
           tt (config ["https://a"; "https://b"]) []
           {| lb_Hosts := []; conn := tt |} "https://a" ["https://b"]
           {| NodesUp := up ["a"]; NodesDown := ["b"] |} []).
  - simpl; lia.
  - reflexivity.
  - reflexivity.
  - reflexivity.
  - vm_compute; lia.
  - intros ep Hep. simpl in Hep.
    apply elem_of_cons in Hep as [->|Hep]; [apply list_elem_of_here|].
    apply list_elem_of_singleton in Hep as ->.
    apply list_elem_of_further, list_elem_of_here.
Defined.

(** No client, no call. *)
Lemma Join_no_client_witness :
  NewClientCall (Some "no key")
    ∈ calls (Join (λ _ : @Config unit, inl "no key")
               (ClusterStatus all_alone) (AddNode all_alone) elements tt
               (config ["https://a"; "https://b"]) []) ∧
  Join (λ _ : @Config unit, inl "no key")
    (ClusterStatus all_alone) (AddNode all_alone) elements tt
    (config ["https://a"; "https://b"]) []
  = {| outcome := Return (Some "no key"); locals := None; world := [];
       calls := [NewClientCall (Some "no key")] |}.
Proof.
  assert (H : NewClientCall (Some "no key")
                ∈ calls (Join (λ _ : @Config unit, inl "no key")
                           (ClusterStatus all_alone) (AddNode all_alone)
                           elements tt (config ["https://a"; "https://b"]) []))
    by apply list_elem_of_here.
  split; [exact H|].
  exact (Join_no_client _ _ _ _ _ _ _ _ H).
Defined.

(** The join request for [y] is routed to [x], the one member; the
    request for [z] after it goes out from the client as the first
    request left it. *)
Lemma Join_first_request_routed_witness :
  (∀ m : gset string, elements m ≡ₚ elements m) ∧
  routed (calls (run all_alone ["https://x"; "https://y"; "https://z"]))
    = [["x"]; ["x"; "y"]] ∧
  ∃ l, locals (run all_alone ["https://x"; "https://y"; "https://z"]) = Some l ∧
       ("x" ∈ ["x"] ↔ "x" ∈ clusterNodes l).
Proof.
  split; [done|]. split; [reflexivity|]. eexists. split; [reflexivity|].
  apply (Join_first_request_routed NewClient (ClusterStatus all_alone)
           (AddNode all_alone) elements (λ m, reflexivity (elements m)) tt
           (config ["https://x"; "https://y"; "https://z"]) []);
    reflexivity.
Defined.

(** [b] times out: [Join] ends with an empty membership set. *)
Lemma Join_membership_empty_iff_witness :
  ∃ l, locals (run unreachable ["https://a"; "https://b"; "https://c"]) = Some l ∧
       clusterNodes l = ∅.
Proof.
  eexists. split; [reflexivity|].
  apply (Join_membership_empty_iff NewClient (ClusterStatus unreachable)
           (AddNode unreachable) elements tt
           (config ["https://a"; "https://b"; "https://c"]) []);
    [reflexivity|].
  exists ["b"], "timeout".
  do 2 apply list_elem_of_further. apply list_elem_of_here.
Defined.
